(** * A shallow embedding of markov.go

    The program builds a Markov chain over whitespace-separated words
    ([Chain.Build]) and writes a random walk over it ([Chain.Generate]).

    Conventions of the embedding:
    - a Go [string] is a [string]; a [[]string] is a [list string];
    - [map[string][]string] is a [gmap string (list string)]; reading a key
      that is absent yields the nil slice, as in Go;
    - Go's [int] is [Z];
    - a run-time panic is the [Panics] outcome of [exec];
    - a slice or a map that the source mutates in place is passed and
      returned explicitly. *)

From Stdlib Require Import ZArith.
From stdpp Require Import base numbers option list strings gmap.

#[local] Open Scope Z_scope.

(** ** Outcomes: a normal return or a run-time panic *)

Inductive exec (A : Type) : Type :=
| Returns (a : A)
| Panics (msg : string).
Arguments Returns {A} a.
Arguments Panics {A} msg.

Definition exec_bind {A B} (m : exec A) (k : A → exec B) : exec B :=
  match m with
  | Returns a => k a
  | Panics msg => Panics msg
  end.

Notation "'let!' x ':=' m 'in' k" := (exec_bind m (fun x => k))
  (at level 10, x name, m at level 100, k at level 200, only parsing).



(** The values of Go's [error] interface that the program can meet: [nil] is
    [None], [io.EOF] is [Some EOF]. *)
Inductive error : Type :=
| EOF
| ErrShortWrite
| ErrOther (msg : string).

Global Instance error_eq_dec : EqDecision error.
Proof. solve_decision. Defined.

(** ** Slices *)

(** [s[low:]]: panics unless [low <= len(s)]. *)
Definition slice_from {A} (s : list A) (low : nat) : exec (list A) :=
  if decide (low ≤ length s)%nat then Returns (drop low s)
  else Panics "slice bounds out of range".

(** [copy(dst, src)]: copies [min(len(dst), len(src))] elements and leaves the
    rest of [dst] as it was; overlapping operands behave as if [src] had been
    read first. *)
Definition copy {A} (dst src : list A) : list A :=
  let n := (length dst `min` length src)%nat in
  take n src ++ drop n dst.

(** [s[i] = x]: panics unless [0 <= i < len(s)]. *)
Definition index_set {A} (s : list A) (i : Z) (x : A) : exec (list A) :=
  if decide (0 ≤ i < Z.of_nat (length s)) then Returns (<[Z.to_nat i := x]> s)
  else Panics "index out of range".

(** [s[i]]: panics unless [0 <= i < len(s)]. *)
Definition index_get {A} (s : list A) (i : Z) : exec A :=
  if decide (0 ≤ i) then
    match s !! Z.to_nat i with
    | Some x => Returns x
    | None => Panics "index out of range"
    end
  else Panics "index out of range".

(** [make([]string, n)]: [n] empty strings; panics when [n] is negative. *)
Definition make_strings (n : Z) : exec (list string) :=
  if decide (n < 0) then Panics "makeslice: len out of range"
  else Returns (replicate (Z.to_nat n) "").

(** ** Prefix *)

Abbreviation Prefix := (list string) (only parsing).

(** [strings.Join(elems, sep)]. *)
Fixpoint strings_Join (elems : list string) (sep : string) : string :=
  match elems with
  | [] => ""
  | [x] => x
  | x :: rest => x +:+ sep +:+ strings_Join rest sep
  end.

(** [func (p Prefix) String() string] *)
Definition Prefix_String (p : Prefix) : string := strings_Join p " ".

(** [func (p Prefix) Shift(word string)]; the slice is updated in place, so
    the embedding returns its new contents. *)
Definition Shift (p : Prefix) (word : string) : exec Prefix :=
  let! rest := slice_from p 1 in
  let p := copy p rest in
  index_set p (Z.of_nat (length p) - 1) word.

(** ** Chain *)

Record Chain : Type := mkChain {
  chain : gmap string (list string);
  prefixLen : Z
}.

(** [func NewChain(prefixLength int) *Chain] *)
Definition NewChain (prefixLength : Z) : Chain :=
  {| chain := ∅; prefixLen := prefixLength |}.

(** [c.chain[key]] read as a value: the nil slice when the key is absent. *)
Definition chain_get (m : gmap string (list string)) (key : string) : list string :=
  default [] (m !! key).

(** ** Readers

    [Build] sees its reader only through successive calls of
    [fmt.Fscan(bufReader, &word)]: each call delivers the next
    whitespace-separated word or fails.  A reader is therefore the finite
    sequence of words it delivers followed by the error of the first failing
    call ([io.EOF] at the end of the input, another error when reading
    fails). *)
Inductive Reader : Type :=
| Fail (err : error)
| Word (word : string) (rest : Reader).

Fixpoint reader_of (words : list string) (err : error) : Reader :=
  match words with
  | [] => Fail err
  | w :: ws => Word w (reader_of ws err)
  end.

Fixpoint reader_words (r : Reader) : list string :=
  match r with
  | Fail _ => []
  | Word w rest => w :: reader_words rest
  end.

Fixpoint reader_error (r : Reader) : error :=
  match r with
  | Fail e => e
  | Word _ rest => reader_error rest
  end.

(** [strings.NewReader(s)] as [Fscan] sees it: the words of [s] separated by
    runs of white space (blank, tab, newline, vertical tab, form feed and
    carriage return for ASCII text), then [io.EOF]. *)
Definition strings_NewReader (s : string) : Reader :=
  reader_of (String.words s) EOF.

(** ** Build *)

(** The body of the [for] loop of [Build], with [prefix] the sliding window.
    A failing [Fscan] (any [err != nil]) leaves the loop. *)
Fixpoint Build_loop (m : gmap string (list string)) (prefix : Prefix)
    (r : Reader) : gmap string (list string) * exec unit :=
  match r with
  | Fail _ => (m, Returns tt)
  | Word word rest =>
      let key := Prefix_String prefix in
      let m := <[key := chain_get m key ++ [word]]> m in
      match Shift prefix word with
      | Panics msg => (m, Panics msg)
      | Returns prefix => Build_loop m prefix rest
      end
  end.

(** [func (c *Chain) Build(r io.Reader)]: the chain after the call and how
    the call ended.  [Build] has no result of its own. *)
Definition Build (c : Chain) (r : Reader) : Chain * exec unit :=
  match make_strings (prefixLen c) with
  | Panics msg => (c, Panics msg)
  | Returns prefix =>
      let '(m, out) := Build_loop (chain c) prefix r in
      ({| chain := m; prefixLen := prefixLen c |}, out)
  end.

(** ** Output: [io.Writer] and [bufio.Writer] *)

Abbreviation bytes := (list Ascii.ascii).

(** The [io.Writer] interface: [Write(p []byte) (n int, err error)], with the
    state of the writer made explicit. *)
Class io_Writer (W : Type) : Type :=
  Write : W → bytes → W * nat * option error.

(** [bufio.Writer] over an underlying writer [wr]: [buf] holds the bytes
    [b.buf[0:b.n]] not yet forwarded and [werr] the first error met, which
    is sticky. *)
Record Writer (W : Type) : Type := mkWriter {
  wr : W;
  buf : bytes;
  werr : option error
}.
Arguments mkWriter {W} wr buf werr.
Arguments wr {W} _.
Arguments buf {W} _.
Arguments werr {W} _.

Definition defaultBufSize : nat := 4096.
Arguments defaultBufSize : simpl never.

Section Bufio.
Context {W : Type} `{!io_Writer W}.

(** [bufio.NewWriter(w)], for [w] that is not itself a [bufio.Writer]. *)
Definition NewWriter (w : W) : Writer W :=
  {| wr := w; buf := []; werr := None |}.

Definition Available (b : Writer W) : nat :=
  (defaultBufSize - length (buf b))%nat.

(** [func (b *Writer) Flush() error] *)
Definition Flush (b : Writer W) : Writer W * option error :=
  match werr b with
  | Some e => (b, Some e)
  | None =>
      match buf b with
      | [] => (b, None)
      | _ :: _ =>
          let '(w, n, e) := Write (wr b) (buf b) in
          let e := match e with
                   | None => if decide (n < length (buf b))%nat
                             then Some ErrShortWrite else None
                   | Some e => Some e
                   end in
          match e with
          | Some e => ({| wr := w; buf := drop n (buf b); werr := Some e |}, Some e)
          | None => ({| wr := w; buf := []; werr := None |}, None)
          end
      end
  end.

(** The [for len(s) > b.Available() && b.err == nil] loop of
    [WriteString]: fill the buffer, flush it, go on with the rest of [s].
    [fuel] bounds the number of rounds; [WriteString_loop_exits] shows
    that the bound used by [WriteString] is never reached. *)
Fixpoint WriteString_loop (fuel : nat) (b : Writer W) (s : bytes)
    : Writer W * bytes :=
  match fuel with
  | O => (b, s)
  | S fuel =>
      if decide ((Available b < length s)%nat ∧ werr b = None) then
        let n := (Available b `min` length s)%nat in
        let b := {| wr := wr b; buf := buf b ++ take n s; werr := werr b |} in
        let '(b, _) := Flush b in
        WriteString_loop fuel b (drop n s)
      else (b, s)
  end.

(** [func (b *Writer) WriteString(s string) (int, error)]; the byte count
    is left out, [Generate] discards it.  The underlying writer is reached
    through [Write] only (a writer that also has [WriteString] is handed a
    string longer than the empty buffer in one piece, with the same bytes
    and the same error). *)
Definition WriteString (b : Writer W) (s : string) : Writer W * option error :=
  let s := String.list_ascii_of_string s in
  let '(b, s) := WriteString_loop (2 + length s) b s in
  match werr b with
  | Some e => (b, Some e)
  | None => ({| wr := wr b; buf := buf b ++ s; werr := None |}, None)
  end.
End Bufio.

(** ** Random choices

    The source of [math/rand] is the sequence of raw values it will yield;
    the [k]-th call [rand.Intn(n)] reduces the [k]-th raw value modulo [n].
    [rand.Intn] panics when [n <= 0]. *)
Definition Rand : Type := nat → nat.

Definition rand_Intn (rand : Rand) (k : nat) (n : Z) : exec Z :=
  if decide (n ≤ 0) then Panics "invalid argument to Intn"
  else Returns (Z.of_nat (rand k) `mod` n).

(** The source that always picks the first candidate. *)
Definition rand_first : Rand := λ _, 0%nat.

(** [fmt.Sprint(a, b)] for two string operands: no space is added between
    operands when either is a string. *)
Definition fmt_Sprint (a b : string) : string := a +:+ b.

(** ** Generate *)

(** What a run of [Generate] leaves behind: the chain, the buffered writer,
    the words handed to [WriteString] in order, and how the body ended (the
    returned [error] or a panic). *)
Record Generated (W : Type) : Type := mkGenerated {
  g_chain : gmap string (list string);
  g_writer : Writer W;
  g_words : list string;
  g_ret : exec (option error)
}.
Arguments mkGenerated {W} g_chain g_writer g_words g_ret.
Arguments g_chain {W} _.
Arguments g_writer {W} _.
Arguments g_words {W} _.
Arguments g_ret {W} _.

Section Generate.
Context {W : Type} `{!io_Writer W}.
Variable rand : Rand.

Definition emit (word : string) (g : Generated W) : Generated W :=
  {| g_chain := g_chain g; g_writer := g_writer g;
     g_words := word :: g_words g; g_ret := g_ret g |}.

(** The [for i := 0; i < n; i++] loop of [Generate]: [todo] is [n - i],
    the number of rounds still allowed. *)
Fixpoint Generate_loop (todo i : nat) (m : gmap string (list string))
    (bufWriter : Writer W) (prefix : Prefix) : Generated W :=
  match todo with
  | O => mkGenerated m bufWriter [] (Returns None)
  | S todo =>
      let key := Prefix_String prefix in
      let words := chain_get m key in
      if decide (length words = 0%nat) then
        mkGenerated m bufWriter [] (Returns None)
      else
        match (let! k := rand_Intn rand i (Z.of_nat (length words)) in
               index_get words k) with
        | Panics msg => mkGenerated m bufWriter [] (Panics msg)
        | Returns nextWord =>
            let '(bufWriter, err) :=
              WriteString bufWriter (fmt_Sprint nextWord " ") in
            match err with
            | Some e => mkGenerated m bufWriter [nextWord] (Returns (Some e))
            | None =>
                match Shift prefix nextWord with
                | Panics msg => mkGenerated m bufWriter [nextWord] (Panics msg)
                | Returns prefix =>
                    emit nextWord
                      (Generate_loop todo (S i) m bufWriter prefix)
                end
            end
        end
  end.

(** The body of [Generate] between [defer bufWriter.Flush()] and the
    return. *)
Definition Generate_body (c : Chain) (bufWriter : Writer W) (n : Z)
    : Generated W :=
  match make_strings (prefixLen c) with
  | Panics msg => mkGenerated (chain c) bufWriter [] (Panics msg)
  | Returns prefix =>
      Generate_loop (Z.to_nat n) 0 (chain c) bufWriter prefix
  end.

(** [func (c *Chain) Generate(w io.Writer, n int) error].  The deferred
    [bufWriter.Flush()] runs when the body returns as well as when it
    panics, and what it returns is dropped. *)
Definition Generate (c : Chain) (w : W) (n : Z) : Generated W :=
  let g := Generate_body c (NewWriter w) n in
  let '(bufWriter, _) := Flush (g_writer g) in
  {| g_chain := g_chain g; g_writer := bufWriter;
     g_words := g_words g; g_ret := g_ret g |}.

(** The underlying writer after the call. *)
Definition g_sink (g : Generated W) : W := wr (g_writer g).
End Generate.

(** ** Two writers *)

(** [bytes.Buffer]: keeps everything written, never fails. *)
Definition Buffer : Type := bytes.
Global Instance Buffer_Writer : io_Writer Buffer :=
  λ w p, (w ++ p, length p, None).

(** A writer every [Write] of which fails without taking a byte, such as a
    closed file; it counts the calls. *)
Definition Closed : Type := nat.
Global Instance Closed_Writer : io_Writer Closed :=
  λ w p, (S w, 0%nat, Some (ErrOther "file already closed")).

(** Writers that take every byte they are given. *)
Class Reliable (W : Type) `{!io_Writer W} : Prop :=
  write_all : ∀ (w : W) (p : bytes), ∃ w', Write w p = (w', length p, None).

(** ** What the specification says [Build] records

    The words of the input are read one at a time; each is recorded under the
    key of the window in force when it is read, and the window then drops
    its oldest word and takes the word just read. *)
Fixpoint observations (window : list string) (words : list string)
    : list (string * string) :=
  match words with
  | [] => []
  | w :: ws => (strings_Join window " ", w) :: observations (drop 1 window ++ [w]) ws
  end.

(** The follow-on words observed for [key], first seen first. *)
Definition follow_ons (N : Z) (words : list string) (key : string) : list string :=
  (filter (λ kw, kw.1 = key) (observations (replicate (Z.to_nat N) "") words)).*2.

(** The invariant of the chain: no key holds an empty collection. *)
Definition entries_nonempty (m : gmap string (list string)) : Prop :=
  ∀ key words, m !! key = Some words → words ≠ [].

(** ** The example chain of order 2 *)

Definition the_cat_ran : Chain :=
  (Build (NewChain 2) (strings_NewReader "the cat sat the cat ran")).1.

(** The window in force before the word of index [i >= 2] is chosen when
    the first candidate is always taken, by [i mod 3]. *)
Definition first_choice_window (k : nat) : list string :=
  match k with
  | 0%nat => ["cat"; "sat"]
  | 1%nat => ["sat"; "the"]
  | _ => ["the"; "cat"]
  end.

(** ** The sliding window *)

(** [Shift] applied for each of [words] in turn, as the loops of [Build] and
    [Generate] do with the words they read or choose. *)
Fixpoint Shift_each (p : list string) (words : list string) : exec (list string) :=
  match words with
  | [] => Returns p
  | w :: ws => let! p := Shift p w in Shift_each p ws
  end.

(** The last [N] of [N] empty strings followed by the first [i] of [words]:
    the window a loop that started from [make(Prefix, N)] holds when it has
    taken [i] words. *)
Definition window (N : Z) (words : list string) (i : nat) : list string :=
  drop i (replicate (Z.to_nat N) "" ++ take i words).

(** The number of follow-on words a chain holds, all keys together. *)
Definition chain_size (m : gmap string (list string)) : nat :=
  map_fold (λ _ words n, (length words + n)%nat) 0%nat m.

(** A word without blank, as every word that [fmt.Fscan] delivers. *)
Definition no_space (w : string) : Prop :=
  Ascii.Space ∉ String.list_ascii_of_string w.

Global Instance no_space_dec (w : string) : Decision (no_space w).
Proof. unfold no_space. apply _. Defined.

(** The bytes of [words], each followed by one blank. *)
Fixpoint spaced (words : list string) : bytes :=
  match words with
  | [] => []
  | w :: ws => String.list_ascii_of_string (fmt_Sprint w " ") ++ spaced ws
  end.

(** ** main

    The values of the flags [words] and [prefix] are taken as parsed, the
    random source as seeded, and [os.Stdin] and [os.Stdout] as a reader and
    a writer.  A run ends by returning from [main] (exit status 0), in
    [log.Fatal] (status 1) or in a panic (status 2). *)
Inductive ending : Type :=
| Exit0
| Fatal (e : error)
| Crash (msg : string).

Definition exit_status (e : ending) : Z :=
  match e with
  | Exit0 => 0
  | Fatal _ => 1
  | Crash _ => 2
  end.

Definition newline : Ascii.ascii := Ascii.ascii_of_nat 10.

Section Main.
Context {W : Type} `{!io_Writer W}.

(** [fmt.Println()] with no operand: one [Write] of a newline to
    [os.Stdout], the result of which [main] discards. *)
Definition fmt_Println (stdout : W) : W := (Write stdout [newline]).1.1.

(** [func main()]: the standard output after the run and how it ended. *)
Definition main (numWords prefixLen : Z) (rand : Rand) (stdin : Reader)
    (stdout : W) : W * ending :=
  let chain := NewChain prefixLen in
  match Build chain stdin with
  | (_, Panics msg) => (stdout, Crash msg)
  | (chain, Returns _) =>
      let g := Generate rand chain stdout numWords in
      match g_ret g with
      | Panics msg => (g_sink g, Crash msg)
      | Returns (Some err) => (g_sink g, Fatal err)
      | Returns None => (fmt_Println (g_sink g), Exit0)
      end
  end.
End Main.

(** ** Inputs of the examples *)


(** The chain of order 1 built from the single word "a". *)
Definition chain_a : Chain := (Build (NewChain 1) (strings_NewReader "a")).1.


(** * Properties *)

(** ** Prefix.Shift *)

Lemma Shift_nil (w : string) : Shift [] w = Panics "slice bounds out of range".
Proof. reflexivity. Qed.

Lemma copy_tail {A} (x : A) (l : list A) :
  ∃ y, copy (x :: l) l = l ++ [y].
Proof.
  unfold copy. cbn [length]. rewrite Nat.min_r by lia.
  rewrite take_ge by lia.
  assert (Hlen : length (drop (length l) (x :: l)) = 1%nat)
    by (rewrite length_drop; cbn [length]; lia).
  destruct (drop (length l) (x :: l)) as [|y [|z l']]; try discriminate.
  by exists y.
Qed.

Lemma Shift_cons (x : string) (p : Prefix) (w : string) :
  Shift (x :: p) w = Returns (p ++ [w]).
Proof.
  unfold Shift, slice_from. cbn [length].
  rewrite decide_True by lia. cbn [exec_bind drop]. cbv zeta. rewrite drop_0.
  destruct (copy_tail x p) as [y ->].
  unfold index_set. rewrite length_app. cbn [length].
  rewrite decide_True by lia. f_equal.
  replace (Z.to_nat (Z.of_nat (length p + 1) - 1)) with (length p + 0)%nat by lia.
  by rewrite insert_app_r.
Qed.

Lemma Shift_returns (p : Prefix) (w : string) :
  p ≠ [] → Shift p w = Returns (drop 1 p ++ [w]).
Proof. destruct p as [|x p]; [done|]. intros _. by rewrite Shift_cons. Qed.

(** C9.  For a prefix [p] of length [N >= 1] and a word [w], [Shift] leaves
    in [p] its elements 2..N followed by [w]: the first word is dropped, [w]
    is last, and the length is still [N]. *)
Theorem Shift_drops_first_appends_word (N : nat) (p : Prefix) (w : string) :
  (1 ≤ N)%nat → length p = N →
  ∃ p', Shift p w = Returns p' ∧ p' = drop 1 p ++ [w] ∧ length p' = N ∧
        (∀ i, (i < N - 1)%nat → p' !! i = p !! S i) ∧
        p' !! (N - 1)%nat = Some w.
Proof.
  intros HN Hlen. destruct p as [|x p]; simpl in Hlen; [lia|].
  exists (p ++ [w]). rewrite Shift_cons. cbn [drop]. rewrite drop_0.
  split; [done|]. split; [done|]. split; [|split].
  - rewrite length_app. simpl. lia.
  - intros i Hi. rewrite lookup_app_l by lia. done.
  - apply list_lookup_middle. lia.
Qed.

Lemma Shift_drops_first_appends_word_witness :
  ∃ p', Shift ["the"; "cat"] "sat" = Returns p' ∧
        p' = drop 1 ["the"; "cat"] ++ ["sat"] ∧ length p' = 2%nat ∧
        (∀ i, (i < 2 - 1)%nat → p' !! i = ["the"; "cat"] !! S i) ∧
        p' !! (2 - 1)%nat = Some "sat".
Proof.
  apply (Shift_drops_first_appends_word 2 ["the"; "cat"] "sat"); [lia | reflexivity].
Defined.

(** ** Build *)

Lemma make_strings_returns (N : Z) :
  0 ≤ N → make_strings N = Returns (replicate (Z.to_nat N) "").
Proof. intros. unfold make_strings. by rewrite decide_False by lia. Qed.

Lemma replicate_nonempty (N : Z) : 1 ≤ N → replicate (Z.to_nat N) "" ≠ [].
Proof. intros HN Hnil. apply (f_equal length) in Hnil. rewrite length_replicate in Hnil. simpl in Hnil. lia. Qed.


Lemma Build_loop_words (r : Reader) :
  ∀ m p, Build_loop m p r = Build_loop m p (reader_of (reader_words r) EOF).
Proof.
  induction r as [e|w rest IH]; intros m p; simpl; [done|].
  destruct (Shift p w); [apply IH | done].
Qed.

Lemma Build_loop_entries_nonempty (r : Reader) :
  ∀ m p, entries_nonempty m → entries_nonempty (Build_loop m p r).1.
Proof.
  induction r as [e|w rest IH]; intros m p Hm; simpl; [done|].
  assert (entries_nonempty (<[Prefix_String p := chain_get m (Prefix_String p) ++ [w]]> m)) as Hm'.
  { intros key words. rewrite lookup_insert. case_decide.
    - intros [= <-]. by destruct (chain_get m (Prefix_String p)).
    - apply Hm. }
  destruct (Shift p w); [by apply IH | done].
Qed.

Lemma Build_loop_follow_ons (words : list string) (e : error) :
  ∀ m p key, p ≠ [] →
    chain_get (Build_loop m p (reader_of words e)).1 key
    = chain_get m key ++ (filter (λ kw, kw.1 = key) (observations p words)).*2.
Proof.
  induction words as [|w ws IH]; intros m p key Hp; simpl.
  { by rewrite app_nil_r. }
  rewrite Shift_returns by done.
  rewrite IH by (by destruct (drop 1 p)).
  unfold Prefix_String, chain_get.
  destruct (decide (strings_Join p " " = key)) as [<-|Hk].
  - rewrite lookup_insert_eq, filter_cons_True by done.
    rewrite fmap_cons. cbn. by rewrite <- app_assoc.
  - rewrite lookup_insert_ne, filter_cons_False by done. done.
Qed.

Lemma Build_NewChain (N : Z) (r : Reader) :
  0 ≤ N →
  Build (NewChain N) r
  = ({| chain := (Build_loop ∅ (replicate (Z.to_nat N) "") r).1; prefixLen := N |},
     (Build_loop ∅ (replicate (Z.to_nat N) "") r).2).
Proof.
  intros HN. unfold Build, NewChain. cbn [prefixLen chain].
  rewrite make_strings_returns by done.
  by destruct (Build_loop _ _ _).
Qed.

Lemma Build_words (c : Chain) (r : Reader) :
  Build c r = Build c (reader_of (reader_words r) EOF).
Proof.
  unfold Build. destruct (make_strings _); [|done].
  by rewrite Build_loop_words.
Qed.

Lemma reader_words_of (words : list string) (e : error) :
  reader_words (reader_of words e) = words.
Proof. induction words; simpl; congruence. Qed.


(** C7.  With prefix order 1, building from "a a a b" gives a chain with
    exactly two keys: the empty key with [a], and "a" with [a; a; b]; there
    is no key "b". *)
Theorem Build_a_a_a_b :
  Build (NewChain 1) (strings_NewReader "a a a b")
  = ({| chain := {[ "" := ["a"]; "a" := ["a"; "a"; "b"] ]}; prefixLen := 1 |},
     Returns tt)
  ∧ dom (chain (Build (NewChain 1) (strings_NewReader "a a a b")).1)
    = ({[ ""; "a" ]} : gset string)
  ∧ chain (Build (NewChain 1) (strings_NewReader "a a a b")).1 !! "b" = None.
Proof.
  assert (Build (NewChain 1) (strings_NewReader "a a a b")
          = ({| chain := {[ "" := ["a"]; "a" := ["a"; "a"; "b"] ]}; prefixLen := 1 |},
             Returns tt)) as ->
    by (vm_compute; reflexivity).
  split; [done|]. cbn [fst chain]. split.
  - rewrite dom_insert_L, dom_singleton_L. set_solver.
  - by simplify_map_eq.
Qed.




(** C6.  [Build] is a function of the prefix order and of the words read:
    two runs over the same words give the same chain, and (for an order of
    at least 1) each key holds exactly the words observed after it, in the
    order in which they were read; a key without observation is absent. *)
Theorem Build_deterministic_insertion_order (N : Z) (r1 r2 : Reader) :
  reader_words r1 = reader_words r2 →
  Build (NewChain N) r1 = Build (NewChain N) r2 ∧
  (1 ≤ N → ∀ key,
     chain (Build (NewChain N) r1).1 !! key
     = match follow_ons N (reader_words r1) key with
       | [] => None
       | ws => Some ws
       end).
Proof.
  intros Hw. split.
  { rewrite (Build_words _ r1), (Build_words _ r2). by rewrite Hw. }
  intros HN key.
  rewrite (Build_words _ r1), Build_NewChain by lia. cbn [fst chain].
  pose proof (Build_loop_follow_ons (reader_words r1) EOF ∅ _ key
                (replicate_nonempty _ HN)) as Hget.
  pose proof (Build_loop_entries_nonempty (reader_of (reader_words r1) EOF) ∅
                (replicate (Z.to_nat N) "")) as Hne.
  unfold chain_get in Hget at 2. rewrite lookup_empty in Hget. cbn in Hget.
  fold (follow_ons N (reader_words r1) key) in Hget.
  unfold chain_get in Hget.
  destruct (_ !! key) as [ws|] eqn:Hk; cbn in Hget; rewrite <- Hget; [|done].
  apply Hne in Hk; [by destruct ws | by intros ??; rewrite lookup_empty].
Qed.

Lemma Build_deterministic_insertion_order_witness :
  Build (NewChain 1) (strings_NewReader "a a a b")
  = Build (NewChain 1) (reader_of ["a"; "a"; "a"; "b"] EOF) ∧
  (1 ≤ 1 → ∀ key,
     chain (Build (NewChain 1) (strings_NewReader "a a a b")).1 !! key
     = match follow_ons 1 (reader_words (strings_NewReader "a a a b")) key with
       | [] => None
       | ws => Some ws
       end).
Proof.
  apply (Build_deterministic_insertion_order 1 (strings_NewReader "a a a b")
           (reader_of ["a"; "a"; "a"; "b"] EOF)).
  reflexivity.
Defined.

(** ** bufio.Writer *)

Lemma defaultBufSize_pos : (0 < defaultBufSize)%nat.
Proof. apply Nat.ltb_lt. vm_compute. reflexivity. Qed.

Lemma length_list_ascii_of_string (s : string) :
  length (String.list_ascii_of_string s) = String.length s.
Proof. induction s; simpl; congruence. Qed.

Global Instance Buffer_Reliable : Reliable Buffer.
Proof. intros w p. by exists (w ++ p). Qed.

Section BufioFacts.
Context {W : Type} `{!io_Writer W}.

Lemma Flush_failed (b : Writer W) (e : error) :
  werr b = Some e → Flush b = (b, Some e).
Proof. intros He. unfold Flush. by rewrite He. Qed.

(** [Flush] returns the error it records. *)
Lemma Flush_result (b : Writer W) : (Flush b).2 = werr (Flush b).1.
Proof.
  unfold Flush. destruct (werr b) as [e|] eqn:He; [done|].
  destruct (buf b) as [|a l]; [done|].
  destruct (Write _ _) as [[w n] [e|]]; [done|].
  by case_decide.
Qed.

Lemma Flush_ok (b : Writer W) :
  (Flush b).2 = None → buf (Flush b).1 = [].
Proof.
  unfold Flush. destruct (werr b) as [e|] eqn:He; [done|].
  destruct (buf b) as [|a l] eqn:Hb; [done|].
  destruct (Write _ _) as [[w n] [e|]]; [done|].
  by case_decide.
Qed.

Lemma WriteString_loop_failed (fuel : nat) (b : Writer W) (s : bytes) (e : error) :
  werr b = Some e → WriteString_loop fuel b s = (b, s).
Proof.
  intros He. destruct fuel; [done|]. cbn [WriteString_loop].
  rewrite decide_False; [done|]. rewrite He. by intros [_ ?].
Qed.

(** The rounds allowed to the loop of [WriteString] suffice: it stops
    because its condition fails. *)
Lemma WriteString_loop_exits (fuel : nat) :
  ∀ (b : Writer W) (s : bytes),
    (length s + (if decide (Available b = 0%nat) then 1 else 0) < fuel)%nat →
    ¬ ((Available (WriteString_loop fuel b s).1
        < length (WriteString_loop fuel b s).2)%nat
       ∧ werr (WriteString_loop fuel b s).1 = None).
Proof.
  pose proof defaultBufSize_pos as Hpos.
  induction fuel as [|fuel IH]; intros b s Hfuel; [lia|].
  cbn [WriteString_loop].
  destruct (decide ((Available b < length s)%nat ∧ werr b = None))
    as [[Hlt Herr]|Hcond]; [|done].
  rewrite Nat.min_l by lia.
  set (b1 := {| wr := wr b; buf := buf b ++ take (Available b) s; werr := werr b |}).
  destruct (Flush b1) as [b2 e2] eqn:Hflush.
  pose proof (Flush_result b1) as Hres. pose proof (Flush_ok b1) as Hok.
  rewrite Hflush in Hres, Hok. cbn [fst snd] in Hres, Hok.
  destruct e2 as [e|].
  { rewrite (WriteString_loop_failed _ _ _ e) by done. cbn [fst snd].
    rewrite <- Hres. by intros [_ ?]. }
  apply IH. rewrite length_drop.
  rewrite decide_False by (unfold Available; rewrite Hok by done; simpl; lia).
  case_decide; lia.
Qed.

Lemma WriteString_rounds_suffice (b : Writer W) (s : bytes) :
  ¬ ((Available (WriteString_loop (2 + length s) b s).1
      < length (WriteString_loop (2 + length s) b s).2)%nat
     ∧ werr (WriteString_loop (2 + length s) b s).1 = None).
Proof. apply WriteString_loop_exits. case_decide; lia. Qed.


Context `{!Reliable W}.

Lemma Flush_reliable (b : Writer W) :
  werr b = None →
  (Flush b).2 = None ∧ werr (Flush b).1 = None.
Proof.
  intros He. unfold Flush. rewrite He.
  destruct (buf b) as [|a l] eqn:Hb; [done|].
  destruct (write_all (wr b) (a :: l)) as [w' ->].
  by rewrite decide_False by lia.
Qed.

Lemma WriteString_loop_reliable (fuel : nat) :
  ∀ (b : Writer W) (s : bytes),
    werr b = None → werr (WriteString_loop fuel b s).1 = None.
Proof.
  induction fuel as [|fuel IH]; intros b s He; [done|].
  cbn [WriteString_loop]. case_decide; [|done].
  match goal with |- context [Flush ?b1] =>
    pose proof (Flush_reliable b1 He) as [_ Hw]; destruct (Flush b1) end.
  by apply IH.
Qed.

Lemma WriteString_reliable (b : Writer W) (s : string) :
  werr b = None →
  (WriteString b s).2 = None ∧ werr (WriteString b s).1 = None.
Proof.
  intros He. unfold WriteString.
  pose proof (WriteString_loop_reliable
                (2 + length (String.list_ascii_of_string s)) b
                (String.list_ascii_of_string s) He) as Hw.
  destruct (WriteString_loop _ _ _) as [b' s']. cbn [fst] in Hw.
  by rewrite Hw.
Qed.
End BufioFacts.

(** ** Generate *)

(** One case analysis for every path through a round of the loop. *)
Ltac loop_paths :=
  cbn [Generate_loop];
  repeat match goal with
    | |- context [decide (length ?ws = 0%nat)] =>
        destruct (decide (length ws = 0%nat))
    | |- context [match exec_bind ?a ?k with _ => _ end] =>
        destruct (exec_bind a k)
    | |- context [WriteString ?b ?s] => destruct (WriteString b s) as [? [?|]]
    | |- context [match Shift ?p ?w with _ => _ end] => destruct (Shift p w)
    end;
  cbn [g_chain g_writer g_words g_ret emit].

Section GenerateFacts.
Context {W : Type} `{!io_Writer W}.
Variable rand : Rand.

(** The choice [words[rand.Intn(len(words))]] is in bounds whenever
    [words] is not empty. *)
Lemma choice_in_bounds (i : nat) (words : list string) :
  words ≠ [] →
  ∃ w, (let! k := rand_Intn rand i (Z.of_nat (length words)) in
        index_get words k) = Returns w ∧ w ∈ words.
Proof.
  intros Hne. assert (0 < Z.of_nat (length words)) as Hlen
    by (destruct words; [done | simpl; lia]).
  unfold rand_Intn. rewrite decide_False by lia. cbn [exec_bind].
  pose proof (Z.mod_pos_bound (Z.of_nat (rand i)) _ Hlen) as Hk.
  unfold index_get. rewrite decide_True by lia.
  destruct (lookup_lt_is_Some_2 words
              (Z.to_nat (Z.of_nat (rand i) `mod` Z.of_nat (length words))))
    as [w Hw]; [lia|].
  rewrite Hw. exists w. split; [done|]. by eapply list_elem_of_lookup_2.
Qed.


Lemma Generate_loop_words_le (todo : nat) :
  ∀ i m bw p,
    (length (g_words (Generate_loop rand todo i m bw p)) ≤ todo)%nat.
Proof.
  induction todo as [|todo IH]; intros; [done|].
  loop_paths; cbn [length]; try lia.
  match goal with |- context [Generate_loop rand todo ?i ?m ?b ?p] =>
    specialize (IH i m b p) end. lia.
Qed.


(** A non-nil result of the loop is the error recorded by the buffered
    writer. *)
Lemma Generate_loop_error (todo : nat) :
  ∀ i m bw p e,
    g_ret (Generate_loop rand todo i m bw p) = Returns (Some e) →
    werr (g_writer (Generate_loop rand todo i m bw p)) = Some e.
Proof.
  induction todo as [|todo IH]; intros i m bw p e; [done|].
  cbn [Generate_loop].
  destruct (decide _); [done|]. destruct (exec_bind _ _) as [w|]; [|done].
  destruct (WriteString bw (fmt_Sprint w " ")) as [bw' err] eqn:Hws.
  destruct err as [e'|].
  - cbn [g_ret g_writer]. intros [= <-].
    unfold WriteString in Hws. destruct (WriteString_loop _ _ _) as [b1 s1].
    destruct (werr b1) eqn:Hb1; by simplify_eq.
  - destruct (Shift p w); [|done]. cbn [emit g_ret g_writer]. apply IH.
Qed.


Lemma Generate_words (c : Chain) (w : W) (n : Z) :
  g_words (Generate rand c w n) = g_words (Generate_body rand c (NewWriter w) n).
Proof. unfold Generate. by destruct (Flush _). Qed.

Lemma Generate_ret (c : Chain) (w : W) (n : Z) :
  g_ret (Generate rand c w n) = g_ret (Generate_body rand c (NewWriter w) n).
Proof. unfold Generate. by destruct (Flush _). Qed.

Lemma Generate_words_le (c : Chain) (w : W) (n : Z) :
  (length (g_words (Generate rand c w n)) ≤ Z.to_nat n)%nat.
Proof.
  rewrite Generate_words. unfold Generate_body.
  destruct (make_strings _); [|simpl; lia].
  apply Generate_loop_words_le.
Qed.

End GenerateFacts.





(** C5, the claim as stated fails for a negative [maxTokens]: no word is
    emitted, and zero is more than a negative bound. *)
Lemma Generate_negative_maxTokens :
  g_words (Generate rand_first (Build (NewChain 1) (strings_NewReader "a a")).1
             ([] : Buffer) (-1)) = [] ∧
  ¬ (Z.of_nat (length (g_words
        (Generate rand_first (Build (NewChain 1) (strings_NewReader "a a")).1
           ([] : Buffer) (-1)))) ≤ -1).
Proof. split; [reflexivity|]. vm_compute. intros H. by apply H. Qed.

(** C5, amended.  For every chain, every integer [maxTokens] and every
    sequence of random choices, [Generate] emits at most [max 0 maxTokens]
    words: never more than a non-negative [maxTokens], and none when
    [maxTokens] is zero or negative, cycle in the chain or not. *)
Theorem Generate_at_most_maxTokens {W : Type} `{!io_Writer W}
    (rand : Rand) (c : Chain) (w : W) (n : Z) :
  Z.of_nat (length (g_words (Generate rand c w n))) ≤ Z.max 0 n.
Proof. pose proof (Generate_words_le rand c w n). lia. Qed.

(** The cap, not the chain, stops a walk that cycles. *)
Example Generate_cycle_capped :
  g_words (Generate rand_first (Build (NewChain 1) (strings_NewReader "a a a")).1
             ([] : Buffer) 5) = ["a"; "a"; "a"; "a"; "a"].
Proof. vm_compute. reflexivity. Qed.

(** C3.  One word fits in the buffer, so the only write to the underlying
    writer is that of the deferred [Flush]; the writer rejects it, [Flush]
    records and returns the error, and [Generate] returns [nil]. *)
Theorem Generate_drops_flush_error :
  g_words (Generate rand_first chain_a (0%nat : Closed) 1) = ["a"] ∧
  g_sink (Generate rand_first chain_a (0%nat : Closed) 1) = 1%nat ∧
  (Flush (g_writer (Generate_body rand_first chain_a (NewWriter (0%nat : Closed)) 1))).2
  = Some (ErrOther "file already closed") ∧
  g_ret (Generate rand_first chain_a (0%nat : Closed) 1) = Returns None.
Proof. vm_compute. done. Qed.

(** A write that fails while words are still being produced is returned:
    2048 words "a " fill the buffer, the next one forces it out, the writer
    rejects it, and [Generate] stops with that error. *)
Example Generate_returns_error_of_full_buffer :
  g_ret (Generate rand_first (Build (NewChain 1) (strings_NewReader "a a")).1
           (0%nat : Closed) 3000)
  = Returns (Some (ErrOther "file already closed")) ∧
  length (g_words (Generate rand_first (Build (NewChain 1) (strings_NewReader "a a")).1
                     (0%nat : Closed) 3000)) = 2049%nat.
Proof. vm_compute. done. Qed.


(** ** Prefix order 0 *)


Lemma length_append (s1 s2 : string) :
  String.length (s1 +:+ s2) = (String.length s1 + String.length s2)%nat.
Proof.
  induction s1 as [|a s1 IH]; [reflexivity|].
  change (S (String.length (s1 +:+ s2)) = S (String.length s1 + String.length s2)).
  by rewrite IH.
Qed.






(** ** The walk that always takes the first candidate *)

Lemma rand_first_choice (i : nat) (w : string) (ws : list string) :
  (let! k := rand_Intn rand_first i (Z.of_nat (length (w :: ws))) in
   index_get (w :: ws) k) = Returns w.
Proof.
  unfold rand_Intn, rand_first. rewrite decide_False by (simpl; lia).
  cbn [exec_bind]. by rewrite Z.mod_0_l by (simpl; lia).
Qed.

Section FirstChoice.
Context {W : Type} `{!io_Writer W} `{!Reliable W}.
Variable m : gmap string (list string).

Lemma first_choice_round (todo i : nat) (bw : Writer W) (p p' : list string)
    (w : string) (ws : list string) :
  chain_get m (Prefix_String p) = w :: ws →
  werr bw = None →
  Shift p w = Returns p' →
  ∃ bw', werr bw' = None ∧
    Generate_loop rand_first (S todo) i m bw p
    = emit w (Generate_loop rand_first todo (S i) m bw' p').
Proof.
  intros Hget Hw Hshift. cbn [Generate_loop]. rewrite Hget.
  rewrite decide_False by done. rewrite rand_first_choice.
  destruct (WriteString_reliable bw (fmt_Sprint w " ") Hw) as [He Hw'].
  destruct (WriteString _ _) as [bw' err]. cbn [fst snd] in He, Hw'. subst err.
  rewrite Hshift. by exists bw'.
Qed.

Hypothesis after_the_cat : chain_get m "the cat" = ["sat"; "ran"].
Hypothesis after_cat_sat : chain_get m "cat sat" = ["the"].
Hypothesis after_sat_the : chain_get m "sat the" = ["cat"].

Lemma first_choice_cycle (todo : nat) :
  ∀ (k i : nat) (bw : Writer W),
    (k < 3)%nat → werr bw = None →
    g_ret (Generate_loop rand_first todo i m bw (first_choice_window k))
    = Returns None ∧
    length (g_words (Generate_loop rand_first todo i m bw (first_choice_window k)))
    = todo ∧
    ∀ j, (j < todo)%nat →
      g_words (Generate_loop rand_first todo i m bw (first_choice_window k)) !! j
      = ["the"; "cat"; "sat"] !! ((k + j) `mod` 3)%nat.
Proof.
  induction todo as [|todo IH]; intros k i bw Hk Hw.
  { split; [done|]. split; [done|]. intros; lia. }
  assert (∃ w ws p' k', chain_get m (Prefix_String (first_choice_window k)) = w :: ws
            ∧ Shift (first_choice_window k) w = Returns p'
            ∧ p' = first_choice_window k' ∧ (k' < 3)%nat
            ∧ ["the"; "cat"; "sat"] !! k = Some w
            ∧ k' = (S k `mod` 3)%nat)
    as (w & ws & p' & k' & Hget & Hshift & -> & Hk' & Hw0 & Hnext).
  { destruct k as [|[|[|?]]]; [| | |lia].
    - exists "the", [], ["sat"; "the"], 1%nat. split_and!; [exact after_cat_sat | done | done | lia | done | done].
    - exists "cat", [], ["the"; "cat"], 2%nat. split_and!; [exact after_sat_the | done | done | lia | done | done].
    - exists "sat", ["ran"], ["cat"; "sat"], 0%nat. split_and!; [exact after_the_cat | done | done | lia | done | done]. }
  destruct (first_choice_round todo i bw _ _ _ _ Hget Hw Hshift) as (bw' & Hw' & ->).
  destruct (IH k' (S i) bw' Hk' Hw') as (Hret & Hlen & Hnth).
  cbn [emit g_ret g_words length]. split; [done|]. split; [by rewrite Hlen|].
  intros [|j] Hj.
  - rewrite Nat.add_0_r, Nat.mod_small by lia. done.
  - cbn [lookup list_lookup]. rewrite Hnth by lia. f_equal.
    rewrite Hnext. rewrite Nat.Div0.add_mod_idemp_l. f_equal. lia.
Qed.
End FirstChoice.

Lemma the_cat_ran_chain :
  the_cat_ran
  = {| chain := {[ " " := ["the"]; " the" := ["cat"]; "the cat" := ["sat"; "ran"];
                   "cat sat" := ["the"]; "sat the" := ["cat"] ]};
       prefixLen := 2 |}.
Proof. vm_compute. reflexivity. Qed.

(** C1, the claim as stated fails.  With [maxTokens = 6] the walk that
    always takes the first candidate emits "the cat sat the cat sat": after
    "the cat" the first recorded candidate is "sat", both times. *)
Lemma Generate_first_choice_not_ran :
  g_words (Generate rand_first the_cat_ran ([] : Buffer) 6)
  = ["the"; "cat"; "sat"; "the"; "cat"; "sat"] ∧
  g_words (Generate rand_first the_cat_ran ([] : Buffer) 6)
  ≠ ["the"; "cat"; "sat"; "the"; "cat"; "ran"] ∧
  String.string_of_list_ascii (g_sink (Generate rand_first the_cat_ran ([] : Buffer) 6))
  = "the cat sat the cat sat ".
Proof.
  assert (g_words (Generate rand_first the_cat_ran ([] : Buffer) 6)
          = ["the"; "cat"; "sat"; "the"; "cat"; "sat"]) as ->
    by (vm_compute; reflexivity).
  split; [done|]. split; [discriminate|]. vm_compute. reflexivity.
Qed.

(** C1, amended.  With order 2, after building from "the cat sat the cat
    ran", [Generate] with the choice that always takes the first candidate,
    writing to a writer that accepts its output, emits exactly [maxTokens]
    words (none when [maxTokens] is negative), the word of index [i] being
    the word of index [i mod 3] of "the cat sat"; "ran" is never emitted. *)
Theorem Generate_first_choice_cycles {W : Type} `{!io_Writer W} `{!Reliable W}
    (w : W) (n : Z) :
  g_ret (Generate rand_first the_cat_ran w n) = Returns None ∧
  length (g_words (Generate rand_first the_cat_ran w n)) = Z.to_nat n ∧
  ∀ i, (i < Z.to_nat n)%nat →
    g_words (Generate rand_first the_cat_ran w n) !! i
    = ["the"; "cat"; "sat"] !! (i `mod` 3)%nat.
Proof.
  rewrite Generate_ret, Generate_words. unfold Generate_body.
  rewrite the_cat_ran_chain. cbn [prefixLen chain].
  change (make_strings 2) with (Returns [""; ""]).
  set (m := ({[ " " := ["the"]; " the" := ["cat"]; "the cat" := ["sat"; "ran"];
               "cat sat" := ["the"]; "sat the" := ["cat"] ]}
             : gmap string (list string))).
  assert (chain_get m " " = ["the"]) as H0 by (vm_compute; reflexivity).
  assert (chain_get m " the" = ["cat"]) as H1 by (vm_compute; reflexivity).
  assert (chain_get m "the cat" = ["sat"; "ran"]) as H2 by (vm_compute; reflexivity).
  assert (chain_get m "cat sat" = ["the"]) as H3 by (vm_compute; reflexivity).
  assert (chain_get m "sat the" = ["cat"]) as H4 by (vm_compute; reflexivity).
  clearbody m.
  assert (werr (NewWriter w) = None) as Hw by done.
  destruct (Z.to_nat n) as [|[|todo]].
  - split; [done|]. split; [done|]. intros; lia.
  - destruct (first_choice_round m 0 0 (NewWriter w) [""; ""] [""; "the"] "the" [])
      as (bw1 & _ & ->); [done..|].
    split; [done|]. split; [done|]. intros [|i] Hi; [done | lia].
  - destruct (first_choice_round m (S todo) 0 (NewWriter w) [""; ""] [""; "the"] "the" [])
      as (bw1 & Hw1 & ->); [done..|].
    destruct (first_choice_round m todo 1 bw1 [""; "the"] ["the"; "cat"] "cat" [])
      as (bw2 & Hw2 & ->); [done..|].
    destruct (first_choice_cycle m H2 H3 H4 todo 2 2 bw2) as (Hret & Hlen & Hnth);
      [lia | done |].
    change (first_choice_window 2) with ["the"; "cat"] in *.
    cbn [emit g_ret g_words length]. split; [done|]. split; [by rewrite Hlen|].
    intros [|[|i]] Hi; [done..|].
    cbn [lookup list_lookup]. rewrite Hnth by lia. done.
Qed.

Lemma Generate_first_choice_cycles_witness :
  g_ret (Generate rand_first the_cat_ran ([] : Buffer) 7) = Returns None ∧
  length (g_words (Generate rand_first the_cat_ran ([] : Buffer) 7)) = Z.to_nat 7 ∧
  ∀ i, (i < Z.to_nat 7)%nat →
    g_words (Generate rand_first the_cat_ran ([] : Buffer) 7) !! i
    = ["the"; "cat"; "sat"] !! (i `mod` 3)%nat.
Proof.
  exact (Generate_first_choice_cycles (Reliable0 := Buffer_Reliable) ([] : Buffer) 7).
Defined.

(** ** The window over the words taken so far *)

Lemma window_step (p : list string) (w : string) (l : list string) (k : nat) :
  p ≠ [] → drop (S k) (p ++ w :: l) = drop k ((drop 1 p ++ [w]) ++ l).
Proof.
  destruct p as [|x p]; [done|]. intros _. cbn [drop app].
  by rewrite drop_0, <- app_assoc.
Qed.

Lemma Shift_nonempty (p : list string) (w : string) : drop 1 p ++ [w] ≠ [].
Proof. by destruct (drop 1 p). Qed.

(** X1.  Shifting the words [words] one after the other into a non-empty
    prefix [p] never panics and leaves the last [len(p)] elements of [p]
    followed by [words]: the prefix keeps its length and forgets everything
    older. *)
Theorem Shift_each_keeps_last (p : list string) (words : list string) :
  p ≠ [] →
  Shift_each p words = Returns (drop (length words) (p ++ words)) ∧
  length (drop (length words) (p ++ words)) = length p.
Proof.
  intros Hp. split.
  - revert p Hp. induction words as [|w ws IH]; intros p Hp; cbn [Shift_each length].
    + by rewrite drop_0, app_nil_r.
    + rewrite Shift_returns by done. cbn [exec_bind].
      rewrite IH by apply Shift_nonempty. by rewrite window_step.
  - rewrite length_drop, length_app. lia.
Qed.

Lemma Shift_each_keeps_last_witness :
  Shift_each ["a"; "b"] ["c"; "d"; "e"]
  = Returns (drop (length ["c"; "d"; "e"]) (["a"; "b"] ++ ["c"; "d"; "e"])) ∧
  length (drop (length ["c"; "d"; "e"]) (["a"; "b"] ++ ["c"; "d"; "e"]))
  = length ["a"; "b"].
Proof. apply (Shift_each_keeps_last ["a"; "b"] ["c"; "d"; "e"]). discriminate. Defined.

Lemma observations_lookup (words : list string) :
  ∀ (p : list string) (i : nat), p ≠ [] →
    observations p words !! i
    = (λ w, (strings_Join (drop i (p ++ take i words)) " ", w)) <$> words !! i.
Proof.
  induction words as [|w ws IH]; intros p i Hp; [by destruct i|].
  destruct i as [|i]; cbn [observations lookup list_lookup take].
  - cbn [fmap option_fmap option_map]. by rewrite drop_0, app_nil_r.
  - rewrite IH by apply Shift_nonempty. by rewrite window_step.
Qed.

Lemma observations_elem (words : list string) (p : list string) (key w : string) :
  p ≠ [] →
  w ∈ (filter (λ kw, kw.1 = key) (observations p words)).*2 →
  ∃ j, words !! j = Some w ∧
       strings_Join (drop j (p ++ take j words)) " " = key.
Proof.
  intros Hp Hin. apply list_elem_of_fmap in Hin as ([k w'] & -> & Hin).
  apply list_elem_of_filter in Hin as [Hk Hin]. cbn [fst snd] in *.
  apply list_elem_of_lookup in Hin as [j Hj].
  rewrite observations_lookup in Hj by done.
  destruct (words !! j) as [w''|] eqn:Hw; [|done].
  cbn in Hj. injection Hj as Hkey <-. exists j. by subst.
Qed.

(** ** What Generate emits *)

Section GenerateWalk.
Context {W : Type} `{!io_Writer W}.
Variable rand : Rand.

Lemma Generate_loop_observed (todo : nat) :
  ∀ i m (bw : Writer W) (p : list string), p ≠ [] →
    Forall (λ kw, kw.2 ∈ chain_get m kw.1)
      (observations p (g_words (Generate_loop rand todo i m bw p))).
Proof.
  induction todo as [|todo IH]; intros i m bw p Hp; [by constructor|].
  cbn [Generate_loop].
  destruct (decide (length (chain_get m (Prefix_String p)) = 0%nat)) as [|Hlen];
    [by constructor|].
  destruct (choice_in_bounds rand i (chain_get m (Prefix_String p))) as (w & -> & Hin).
  { intros Hnil. by rewrite Hnil in Hlen. }
  destruct (WriteString _ _) as [bw' [e|]].
  { cbn [g_words observations]. by repeat constructor. }
  rewrite Shift_returns by done. cbn [emit g_words observations].
  constructor; [done|]. apply IH, Shift_nonempty.
Qed.

End GenerateWalk.

(** X2.  No fabricated words: with an order of at least 1, the word of
    index [i] that [Generate] emits is one of the words the chain holds for
    the key of the window at that moment, the last [N] of [N] empty strings
    followed by the [i] words emitted before. *)
Theorem Generate_emits_recorded_follow_ons {W : Type} `{!io_Writer W}
    (rand : Rand) (c : Chain) (w : W) (n : Z) (i : nat) (word : string) :
  1 ≤ prefixLen c →
  g_words (Generate rand c w n) !! i = Some word →
  word ∈ chain_get (chain c)
           (Prefix_String (window (prefixLen c) (g_words (Generate rand c w n)) i)).
Proof.
  intros HN Hi. rewrite Generate_words in *. unfold Generate_body in *.
  rewrite make_strings_returns in * by lia.
  pose proof (Generate_loop_observed rand (Z.to_nat n) 0 (chain c) (NewWriter w) _
                (replicate_nonempty _ HN)) as Hobs.
  rewrite Forall_lookup in Hobs.
  match goal with |- word ∈ chain_get _ ?k => apply (Hobs i (k, word)) end.
  rewrite observations_lookup by by apply replicate_nonempty.
  by rewrite Hi.
Qed.

Lemma Generate_emits_recorded_follow_ons_witness :
  "sat" ∈ chain_get (chain the_cat_ran)
            (Prefix_String
               (window (prefixLen the_cat_ran)
                  (g_words (Generate rand_first the_cat_ran ([] : Buffer) 6)) 5)).
Proof.
  apply (Generate_emits_recorded_follow_ons rand_first the_cat_ran ([] : Buffer) 6 5 "sat").
  - vm_compute. discriminate.
  - vm_compute. reflexivity.
Defined.



(** ** More on Build *)

Lemma Build_loop_reader_of (r : Reader) :
  reader_of (reader_words r) (reader_error r) = r.
Proof. induction r; simpl; congruence. Qed.

Lemma Build_prefixLen (c : Chain) (r : Reader) :
  prefixLen (Build c r).1 = prefixLen c.
Proof.
  unfold Build. destruct (make_strings _); [|done].
  by destruct (Build_loop _ _ _).
Qed.

Lemma Build_chain (c : Chain) (r : Reader) :
  0 ≤ prefixLen c →
  chain (Build c r).1
  = (Build_loop (chain c) (replicate (Z.to_nat (prefixLen c)) "") r).1.
Proof.
  intros HN. unfold Build. rewrite make_strings_returns by done.
  by destruct (Build_loop _ _ _).
Qed.

(** X4.  [Build] only appends: run on a chain that already has entries,
    with an order of at least 1, it leaves under each key the words that
    were there followed by the words observed after that key in the new
    input, in reading order; the order of the chain is unchanged. *)
Theorem Build_appends_to_chain (c : Chain) (r : Reader) (key : string) :
  1 ≤ prefixLen c →
  chain_get (chain (Build c r).1) key
  = chain_get (chain c) key ++ follow_ons (prefixLen c) (reader_words r) key ∧
  prefixLen (Build c r).1 = prefixLen c.
Proof.
  intros HN. split; [|apply Build_prefixLen].
  rewrite Build_chain by lia.
  rewrite <- (Build_loop_reader_of r) at 1.
  by rewrite Build_loop_follow_ons by by apply replicate_nonempty.
Qed.

Lemma Build_appends_to_chain_witness :
  chain_get (chain (Build the_cat_ran (strings_NewReader "the cat")).1) " "
  = chain_get (chain the_cat_ran) " "
    ++ follow_ons (prefixLen the_cat_ran)
         (reader_words (strings_NewReader "the cat")) " " ∧
  prefixLen (Build the_cat_ran (strings_NewReader "the cat")).1
  = prefixLen the_cat_ran.
Proof.
  apply (Build_appends_to_chain the_cat_ran (strings_NewReader "the cat") " ").
  vm_compute. discriminate.
Defined.

Lemma chain_size_comm (j1 j2 : string) (z1 z2 : list string) (y : nat) :
  (length z1 + (length z2 + y) = length z2 + (length z1 + y))%nat.
Proof. lia. Qed.

Lemma chain_size_split (m : gmap string (list string)) (key : string) :
  chain_size m = (length (chain_get m key) + chain_size (delete key m))%nat.
Proof.
  unfold chain_size, chain_get. destruct (m !! key) as [ws|] eqn:Hk.
  - by rewrite (map_fold_delete_L _ _ key ws m
                 (λ j1 j2 z1 z2 y _ _ _, chain_size_comm j1 j2 z1 z2 y) Hk).
  - by rewrite delete_id.
Qed.

Lemma chain_size_insert (m : gmap string (list string)) (key : string)
    (words : list string) :
  chain_size (<[key := words]> m) = (length words + chain_size (delete key m))%nat.
Proof.
  rewrite <- insert_delete_eq. unfold chain_size.
  by rewrite (map_fold_insert_L _ _ key words (delete key m)
               (λ j1 j2 z1 z2 y _ _ _, chain_size_comm j1 j2 z1 z2 y)
               (lookup_delete_eq m key)).
Qed.

Lemma Build_loop_size (r : Reader) :
  ∀ m p, p ≠ [] →
    chain_size (Build_loop m p r).1 = (chain_size m + length (reader_words r))%nat.
Proof.
  induction r as [e|w rest IH]; intros m p Hp; cbn [Build_loop reader_words length fst].
  { lia. }
  rewrite Shift_returns by done. rewrite IH by apply Shift_nonempty.
  rewrite chain_size_insert, (chain_size_split m (Prefix_String p)), length_app.
  simpl. lia.
Qed.

(** X5.  [Build] stores every word it reads exactly once: with an order of
    at least 1 the number of follow-on words held by the chain, all keys
    together, grows by the number of words read, so a new chain ends with
    as many stored words as the input has. *)
Theorem Build_stores_every_word_once (c : Chain) (r : Reader) :
  1 ≤ prefixLen c →
  chain_size (chain (Build c r).1)
  = (chain_size (chain c) + length (reader_words r))%nat.
Proof.
  intros HN. rewrite Build_chain by lia.
  apply Build_loop_size. by apply replicate_nonempty.
Qed.

Lemma Build_stores_every_word_once_witness :
  chain_size (chain (Build (NewChain 2) (strings_NewReader "the cat sat the cat ran")).1)
  = (chain_size (chain (NewChain 2))
     + length (reader_words (strings_NewReader "the cat sat the cat ran")))%nat.
Proof.
  apply (Build_stores_every_word_once (NewChain 2)
           (strings_NewReader "the cat sat the cat ran")).
  simpl. lia.
Defined.

(** ** Build, then Generate *)

Lemma Build_NewChain_get (N : Z) (r : Reader) (key : string) :
  1 ≤ N →
  chain_get (chain (Build (NewChain N) r).1) key = follow_ons N (reader_words r) key.
Proof.
  intros HN. rewrite Build_chain by (simpl; lia). cbn [NewChain chain prefixLen].
  rewrite <- (Build_loop_reader_of r) at 1.
  by rewrite Build_loop_follow_ons by by apply replicate_nonempty.
Qed.

(** X6.  The walk follows the input: when the chain was built from an
    input with an order [N >= 1], every word that [Generate] emits is a
    word of the input, and it stands in the input after a window with the
    same key as the window [Generate] had reached. *)
Theorem Generate_follows_input {W : Type} `{!io_Writer W}
    (rand : Rand) (N : Z) (r : Reader) (w : W) (n : Z) (i : nat) (word : string) :
  1 ≤ N →
  g_words (Generate rand (Build (NewChain N) r).1 w n) !! i = Some word →
  ∃ j, reader_words r !! j = Some word ∧
       Prefix_String (window N (reader_words r) j)
       = Prefix_String
           (window N (g_words (Generate rand (Build (NewChain N) r).1 w n)) i).
Proof.
  intros HN Hi.
  assert (prefixLen (Build (NewChain N) r).1 = N) as HN' by apply Build_prefixLen.
  rewrite Generate_words in *. unfold Generate_body in *.
  rewrite HN', make_strings_returns in * by lia.
  pose proof (Generate_loop_observed rand (Z.to_nat n) 0
                (chain (Build (NewChain N) r).1) (NewWriter w) _
                (replicate_nonempty _ HN)) as Hobs.
  rewrite Forall_lookup in Hobs.
  match goal with |- context [Prefix_String (window N ?out i)] =>
    specialize (Hobs i (Prefix_String (window N out i), word)) end.
  cbn [fst snd] in Hobs.
  rewrite observations_lookup, Hi in Hobs by by apply replicate_nonempty.
  specialize (Hobs eq_refl).
  rewrite Build_NewChain_get in Hobs by done.
  by apply observations_elem in Hobs; [|by apply replicate_nonempty].
Qed.

Lemma Generate_follows_input_witness :
  ∃ j, reader_words (strings_NewReader "the cat sat the cat ran") !! j = Some "sat" ∧
       Prefix_String (window 2 (reader_words (strings_NewReader "the cat sat the cat ran")) j)
       = Prefix_String
           (window 2
              (g_words (Generate rand_first
                 (Build (NewChain 2) (strings_NewReader "the cat sat the cat ran")).1
                 ([] : Buffer) 6)) 5).
Proof.
  apply (Generate_follows_input rand_first 2
           (strings_NewReader "the cat sat the cat ran") ([] : Buffer) 6 5 "sat").
  - lia.
  - vm_compute. reflexivity.
Defined.

(** ** Keys *)

Lemma strings_Join_length (p : list string) :
  p ≠ [] →
  String.length (strings_Join p " ")
  = (sum_list (String.length <$> p) + (length p - 1))%nat.
Proof.
  induction p as [|x [|y l] IH]; intros Hp; [done| |].
  - cbn. lia.
  - change (strings_Join (x :: y :: l) " ")
      with (x +:+ " " +:+ strings_Join (y :: l) " ").
    rewrite !length_append, IH by done.
    rewrite !fmap_cons. simpl. lia.
Qed.

Lemma sum_list_empty_strings (N : nat) :
  sum_list (String.length <$> replicate N "") = 0%nat.
Proof. induction N; cbn in *; [done | lia]. Qed.

Lemma sum_list_live (p : list string) :
  Exists (λ x, x ≠ "") p → (0 < sum_list (String.length <$> p))%nat.
Proof.
  induction 1 as [x l Hx|x l _ IH]; cbn.
  - destruct x; [done | simpl; lia].
  - cbn in IH. lia.
Qed.

(** A window that holds a non-empty word has another key than the window
    of empty strings of the same length. *)
Lemma live_window_key (p : list string) :
  Exists (λ x, x ≠ "") p →
  strings_Join p " " ≠ strings_Join (replicate (length p) "") " ".
Proof.
  intros Hp Heq. apply (f_equal String.length) in Heq.
  assert (p ≠ []) as Hne by (by destruct Hp).
  rewrite !strings_Join_length in Heq;
    [|by destruct p | done].
  rewrite length_replicate, sum_list_empty_strings in Heq.
  apply sum_list_live in Hp. lia.
Qed.

Lemma observations_live (words : list string) :
  ∀ (p : list string),
    Forall (λ x, x ≠ "") words → Exists (λ x, x ≠ "") p →
    filter (λ kw, kw.1 = strings_Join (replicate (length p) "") " ")
      (observations p words) = [].
Proof.
  induction words as [|w ws IH]; intros p Hws Hp; [done|].
  inversion Hws as [|?? Hw Hws']; subst. cbn [observations].
  rewrite filter_cons_False by (by apply live_window_key).
  assert (length (drop 1 p ++ [w]) = length p) as Hlen.
  { destruct p; [by inversion Hp|]. rewrite length_app. simpl. rewrite drop_0. lia. }
  rewrite <- Hlen. apply IH; [done|].
  apply Exists_app. right. by constructor.
Qed.

Lemma follow_ons_start (N : Z) (w1 : string) (rest : list string) :
  1 ≤ N → Forall (λ x, x ≠ "") (w1 :: rest) →
  follow_ons N (w1 :: rest) (Prefix_String (replicate (Z.to_nat N) "")) = [w1].
Proof.
  intros HN Hws. inversion Hws as [|?? Hw1 Hrest]; subst.
  unfold follow_ons, Prefix_String. cbn [observations].
  rewrite filter_cons_True by done.
  assert (length (drop 1 (replicate (Z.to_nat N) "") ++ [w1]) = Z.to_nat N) as Hlen.
  { rewrite length_app, length_drop, length_replicate. simpl. lia. }
  pose proof (observations_live rest (drop 1 (replicate (Z.to_nat N) "") ++ [w1]) Hrest)
    as Hlive.
  rewrite Hlen in Hlive. rewrite Hlive; [done|].
  apply Exists_app. right. by constructor.
Qed.

(** X7.  Every text starts like the input: when the chain was built with
    an order [N >= 1] from an input whose words are not empty (as the words
    [fmt.Fscan] reads are), and [maxTokens >= 1], the first word that
    [Generate] emits is the first word of the input, whatever the random
    choices. *)
Theorem Generate_starts_with_first_word {W : Type} `{!io_Writer W}
    (rand : Rand) (N : Z) (r : Reader) (w : W) (n : Z)
    (w1 : string) (rest : list string) :
  1 ≤ N → 1 ≤ n →
  reader_words r = w1 :: rest →
  Forall (λ x, x ≠ "") (reader_words r) →
  head (g_words (Generate rand (Build (NewChain N) r).1 w n)) = Some w1.
Proof.
  intros HN Hn Hr Hws.
  assert (prefixLen (Build (NewChain N) r).1 = N) as HN' by apply Build_prefixLen.
  rewrite Generate_words. unfold Generate_body.
  rewrite HN', make_strings_returns by lia.
  destruct (Z.to_nat n) as [|todo] eqn:Htodo; [lia|].
  cbn [Generate_loop].
  rewrite Build_NewChain_get, Hr, follow_ons_start by (done || by rewrite <- Hr).
  rewrite decide_False by done.
  destruct (choice_in_bounds rand 0 [w1]) as (word & -> & Hin); [done|].
  apply list_elem_of_singleton in Hin as ->.
  destruct (WriteString _ _) as [bw' [e|]]; [done|].
  by destruct (Shift _ _).
Qed.

Lemma Generate_starts_with_first_word_witness :
  head (g_words (Generate (λ k, (7 * k + 3)%nat)
                   (Build (NewChain 2) (reader_of ["the"; "cat"; "sat"] EOF)).1
                   ([] : Buffer) 10)) = Some "the".
Proof.
  apply (Generate_starts_with_first_word (λ k, (7 * k + 3)%nat) 2
           (reader_of ["the"; "cat"; "sat"] EOF) ([] : Buffer) 10 "the" ["cat"; "sat"]).
  - lia.
  - lia.
  - reflexivity.
  - simpl. repeat constructor; discriminate.
Defined.

Lemma append_no_space_inj (x y r1 r2 : string) :
  no_space x → no_space y →
  x +:+ " " +:+ r1 = y +:+ " " +:+ r2 → x = y ∧ r1 = r2.
Proof.
  assert (Hnil : ∀ s, "" +:+ s = s) by done.
  assert (Hcons : ∀ a s t, String a s +:+ t = String a (s +:+ t)) by done.
  unfold no_space. revert y.
  induction x as [|a x IH]; intros [|b y] Hx Hy Heq;
    rewrite ?Hcons, ?Hnil in Heq; simplify_eq.
  - done.
  - exfalso. apply Hy. simpl. by left.
  - exfalso. apply Hx. simpl. by left.
  - destruct (IH y) as [-> ->]; [| |by rewrite ?Hcons, ?Hnil|done].
    + intros Hin. apply Hx. simpl. by right.
    + intros Hin. apply Hy. simpl. by right.
Qed.

(** X8.  Keys do not collide: two prefixes of the same length whose words
    contain no blank (as the words read by [fmt.Fscan], and the initial
    empty strings) have the same key only if they are the same prefix. *)
Theorem Prefix_String_injective (p q : list string) :
  length p = length q →
  Forall no_space p → Forall no_space q →
  Prefix_String p = Prefix_String q → p = q.
Proof.
  unfold Prefix_String. revert q.
  induction p as [|x p IH]; intros [|y q] Hlen Hp Hq Heq; try discriminate; [done|].
  inversion Hp as [|?? Hx Hp']; inversion Hq as [|?? Hy Hq']; subst.
  destruct p as [|x' p], q as [|y' q]; try discriminate.
  - change (x = y) in Heq. by subst.
  - change (x +:+ " " +:+ strings_Join (x' :: p) " "
            = y +:+ " " +:+ strings_Join (y' :: q) " ") in Heq.
    apply append_no_space_inj in Heq as [-> Heq]; [|done..].
    f_equal. apply IH; [simpl in Hlen |- *; lia | done..].
Qed.

Lemma Prefix_String_injective_witness :
  window 2 ["the"; "cat"] 1 = [""; "the"].
Proof.
  apply (Prefix_String_injective (window 2 ["the"; "cat"] 1) [""; "the"]).
  - reflexivity.
  - apply (bool_decide_unpack _). vm_compute. exact I.
  - apply (bool_decide_unpack _). vm_compute. exact I.
  - reflexivity.
Defined.

(** Without the condition the keys do collide: a word with a blank. *)
Example Prefix_String_collision :
  Prefix_String ["a b"; "c"] = Prefix_String ["a"; "b c"].
Proof. reflexivity. Qed.

(** ** The bytes that reach the output *)

Lemma Flush_Buffer (b : Writer Buffer) :
  werr b = None →
  Flush b = ({| wr := wr b ++ buf b; buf := []; werr := None |}, None).
Proof.
  destruct b as [w l e]. cbn [werr wr buf]. intros ->.
  unfold Flush. cbn [werr wr buf]. destruct l as [|a l].
  - by rewrite app_nil_r.
  - unfold Write, Buffer_Writer. by rewrite decide_False by lia.
Qed.

Lemma WriteString_loop_Buffer (fuel : nat) :
  ∀ (b : Writer Buffer) (s : bytes),
    werr b = None →
    werr (WriteString_loop fuel b s).1 = None ∧
    wr (WriteString_loop fuel b s).1 ++ buf (WriteString_loop fuel b s).1
      ++ (WriteString_loop fuel b s).2
    = wr b ++ buf b ++ s.
Proof.
  induction fuel as [|fuel IH]; intros b s Hw; [done|].
  cbn [WriteString_loop]. case_decide; [|done].
  rewrite Flush_Buffer by done. cbn [wr buf werr].
  destruct (IH {| wr := wr b ++ buf b ++ take (Available b `min` length s) s;
                  buf := []; werr := None |}
              (drop (Available b `min` length s) s) eq_refl) as [Hw' Heq].
  split; [done|]. rewrite Heq. cbn [wr buf app].
  by rewrite <- !app_assoc, take_drop.
Qed.

Lemma WriteString_Buffer (b : Writer Buffer) (s : string) :
  werr b = None →
  (WriteString b s).2 = None ∧ werr (WriteString b s).1 = None ∧
  wr (WriteString b s).1 ++ buf (WriteString b s).1
  = wr b ++ buf b ++ String.list_ascii_of_string s.
Proof.
  intros Hw. unfold WriteString.
  destruct (WriteString_loop_Buffer (2 + length (String.list_ascii_of_string s)) b
              (String.list_ascii_of_string s) Hw) as [Hw' Heq].
  destruct (WriteString_loop _ _ _) as [b' s']. cbn [fst snd] in *.
  rewrite Hw'. cbn [fst snd wr buf werr]. done.
Qed.

Lemma Generate_loop_Buffer (rand : Rand) (todo : nat) :
  ∀ i m (bw : Writer Buffer) p,
    werr bw = None →
    werr (g_writer (Generate_loop rand todo i m bw p)) = None ∧
    wr (g_writer (Generate_loop rand todo i m bw p))
      ++ buf (g_writer (Generate_loop rand todo i m bw p))
    = wr bw ++ buf bw ++ spaced (g_words (Generate_loop rand todo i m bw p)).
Proof.
  induction todo as [|todo IH]; intros i m bw p Hw; cbn [Generate_loop].
  { cbn [g_writer g_words spaced]. by rewrite app_nil_r. }
  destruct (decide _).
  { cbn [g_writer g_words spaced]. by rewrite app_nil_r. }
  destruct (exec_bind _ _) as [word|].
  2:{ cbn [g_writer g_words spaced]. by rewrite app_nil_r. }
  destruct (WriteString_Buffer bw (fmt_Sprint word " ") Hw) as (He & Hw' & Heq).
  destruct (WriteString _ _) as [bw' err]. cbn [fst snd] in *. subst err.
  destruct (Shift p word) as [p'|].
  - cbn [emit g_writer g_words spaced].
    destruct (IH (S i) m bw' p' Hw') as [Hw'' Heq'].
    split; [done|]. by rewrite Heq', app_assoc, Heq, <- !app_assoc.
  - cbn [g_writer g_words spaced]. split; [done|].
    by rewrite Heq, app_nil_r.
Qed.

Lemma Generate_Buffer (rand : Rand) (c : Chain) (w : Buffer) (n : Z) :
  g_sink (Generate rand c w n) = w ++ spaced (g_words (Generate rand c w n)).
Proof.
  rewrite Generate_words. unfold g_sink, Generate.
  assert (werr (g_writer (Generate_body rand c (NewWriter w) n)) = None ∧
          wr (g_writer (Generate_body rand c (NewWriter w) n))
            ++ buf (g_writer (Generate_body rand c (NewWriter w) n))
          = w ++ spaced (g_words (Generate_body rand c (NewWriter w) n)))
    as [Hw Heq].
  { unfold Generate_body. destruct (make_strings _).
    - by apply (Generate_loop_Buffer rand (Z.to_nat n) 0 (chain c) (NewWriter w)).
    - cbn [g_writer g_words spaced NewWriter wr buf werr]. by rewrite app_nil_r. }
  rewrite Flush_Buffer by done. cbn [g_writer wr]. done.
Qed.

(** X9.  Whatever [Generate] emits reaches the output: written to a
    [bytes.Buffer], the output grows by exactly the emitted words in order,
    each followed by one blank (the last one too), for every chain, order
    and [maxTokens], also when [Generate] ends in a panic, where the
    deferred [Flush] still runs. *)
Theorem Generate_writes_words_with_blanks
    (rand : Rand) (c : Chain) (w : Buffer) (n : Z) :
  g_sink (Generate rand c w n) = w ++ spaced (g_words (Generate rand c w n)).
Proof. apply Generate_Buffer. Qed.

(** ** main *)






Example main_the_cat :
  String.string_of_list_ascii
    (main 6 2 rand_first (strings_NewReader "the cat sat the cat ran") ([] : Buffer)).1
  = "the cat sat the cat sat " +:+ String newline "".
Proof. vm_compute. reflexivity. Qed.



(** X12.  With [-prefix] below 1, [main] ends in a panic (status 2) before
    anything is written to the standard output: for a negative value on
    every input, for 0 as soon as the input has a word. *)
Theorem main_order_below_1_crashes {W : Type} `{!io_Writer W}
    (numWords N : Z) (rand : Rand) (stdin : Reader) (stdout : W) :
  N ≤ 0 → (N = 0 → reader_words stdin ≠ []) →
  ∃ msg, main numWords N rand stdin stdout = (stdout, Crash msg) ∧
         exit_status (main numWords N rand stdin stdout).2 = 2.
Proof.
  intros HN Hr. unfold main, Build. cbn [NewChain prefixLen chain].
  unfold make_strings. destruct (decide (N < 0)) as [Hneg|Hzero].
  - by eexists.
  - assert (N = 0) as -> by lia. specialize (Hr eq_refl).
    destruct stdin as [e|word rest]; [done|].
    cbn [Z.to_nat replicate Build_loop]. rewrite Shift_nil. by eexists.
Qed.

Lemma main_order_below_1_crashes_witness :
  ∃ msg, main 100 0 rand_first (strings_NewReader "a b") ([] : Buffer)
         = (([] : Buffer), Crash msg) ∧
         exit_status (main 100 0 rand_first (strings_NewReader "a b") ([] : Buffer)).2 = 2.
Proof.
  apply (main_order_below_1_crashes 100 0 rand_first (strings_NewReader "a b")
           ([] : Buffer)).
  - lia.
  - intros _. discriminate.
Defined.



(** ** The size of the chain *)

Lemma entries_nonempty_size (m : gmap string (list string)) :
  entries_nonempty m → (size m ≤ chain_size m)%nat.
Proof.
  induction m as [|key words m Hkey IH] using map_ind; intros Hm.
  - by rewrite map_size_empty.
  - rewrite map_size_insert_None by done.
    rewrite chain_size_insert, delete_id by done.
    assert (words ≠ []) as Hw by (by apply (Hm key); rewrite lookup_insert_eq).
    assert (entries_nonempty m) as Hm'.
    { intros k ws Hk. apply (Hm k). rewrite lookup_insert_ne; [done|].
      intros ->. by rewrite Hkey in Hk. }
    specialize (IH Hm'). destruct words; [done | simpl; lia].
Qed.

(** X14.  A new chain built with an order of at least 1 has at most as
    many keys as the input has words. *)
Theorem Build_keys_at_most_words (N : Z) (r : Reader) :
  1 ≤ N →
  (size (chain (Build (NewChain N) r).1) ≤ length (reader_words r))%nat.
Proof.
  intros HN.
  assert (entries_nonempty (chain (Build (NewChain N) r).1)) as Hne.
  { rewrite Build_chain by (simpl; lia). cbn [NewChain chain prefixLen].
    apply Build_loop_entries_nonempty. by intros ??; rewrite lookup_empty. }
  apply entries_nonempty_size in Hne.
  rewrite Build_chain in * by (simpl; lia). cbn [NewChain chain prefixLen] in *.
  rewrite Build_loop_size in Hne by by apply replicate_nonempty.
  unfold chain_size in Hne at 1. rewrite map_fold_empty in Hne. lia.
Qed.

Lemma Build_keys_at_most_words_witness :
  (size (chain (Build (NewChain 2) (strings_NewReader "the cat sat the cat ran")).1)
   ≤ length (reader_words (strings_NewReader "the cat sat the cat ran")))%nat.
Proof.
  apply (Build_keys_at_most_words 2 (strings_NewReader "the cat sat the cat ran")).
  lia.
Defined.

(** ** Output that fits in the buffer *)

Section ShortOutput.
Context {W : Type} `{!io_Writer W}.

Lemma WriteString_fits (b : Writer W) (s : string) :
  werr b = None →
  (length (buf b) + String.length s ≤ defaultBufSize)%nat →
  WriteString b s
  = ({| wr := wr b; buf := buf b ++ String.list_ascii_of_string s; werr := None |},
     None).
Proof.
  intros Hw Hfit. unfold WriteString. cbn [Nat.add WriteString_loop].
  rewrite decide_False.
  - by rewrite Hw.
  - unfold Available. rewrite length_list_ascii_of_string. lia.
Qed.

Lemma Generate_loop_fits (rand : Rand) (todo : nat) :
  ∀ i m (bw : Writer W) p,
    werr bw = None →
    (length (buf bw) + length (spaced (g_words (Generate_loop rand todo i m bw p)))
     ≤ defaultBufSize)%nat →
    g_writer (Generate_loop rand todo i m bw p)
    = {| wr := wr bw;
         buf := buf bw ++ spaced (g_words (Generate_loop rand todo i m bw p));
         werr := None |} ∧
    ∀ e, g_ret (Generate_loop rand todo i m bw p) ≠ Returns (Some e).
Proof.
  assert (Hsame : ∀ bw : Writer W, werr bw = None →
            bw = {| wr := wr bw; buf := buf bw ++ []; werr := None |}).
  { intros [w l e]. cbn. intros ->. by rewrite app_nil_r. }
  induction todo as [|todo IH]; intros i m bw p Hw; cbn [Generate_loop].
  { cbn [g_writer g_words g_ret spaced]. intros _. split; [by apply Hsame | done]. }
  destruct (decide _).
  { cbn [g_writer g_words g_ret spaced]. intros _. split; [by apply Hsame | done]. }
  destruct (exec_bind _ _) as [word|].
  2:{ cbn [g_writer g_words g_ret spaced]. intros _. split; [by apply Hsame | done]. }
  destruct (decide (length (buf bw) + String.length (fmt_Sprint word " ")
                    ≤ defaultBufSize)%nat) as [Hfit|Hover].
  - rewrite WriteString_fits by done.
    destruct (Shift p word) as [p'|].
    + cbn [emit g_writer g_words g_ret spaced]. intros Hlen.
      rewrite length_app in Hlen.
      destruct (IH (S i) m
                  {| wr := wr bw;
                     buf := buf bw ++ String.list_ascii_of_string (fmt_Sprint word " ");
                     werr := None |} p' eq_refl) as [-> Hret].
      { cbn [buf]. rewrite length_app. lia. }
      cbn [wr buf]. by rewrite <- app_assoc.
    + cbn [g_writer g_words g_ret spaced wr buf]. intros _. by rewrite app_nil_r.
  - intros Hlen. exfalso. apply Hover.
    rewrite <- length_list_ascii_of_string.
    destruct (WriteString _ _) as [bw' [e|]]; [|destruct (Shift p word)];
      cbn [emit g_words spaced] in Hlen; rewrite length_app in Hlen; lia.
Qed.
End ShortOutput.

(** X15.  As long as the emitted text (the words with their blanks) fits
    in the 4096-byte buffer, [Generate] does not touch the underlying
    writer before its deferred [Flush]: the writer receives the whole text
    in that single flush, and [Generate] never returns an error, whatever
    the writer answers. *)
Theorem Generate_short_output_single_flush {W : Type} `{!io_Writer W}
    (rand : Rand) (c : Chain) (w : W) (n : Z) :
  (length (spaced (g_words (Generate rand c w n))) ≤ defaultBufSize)%nat →
  g_writer (Generate rand c w n)
  = (Flush {| wr := w; buf := spaced (g_words (Generate rand c w n)); werr := None |}).1
  ∧ ∀ e, g_ret (Generate rand c w n) ≠ Returns (Some e).
Proof.
  rewrite Generate_ret, Generate_words. intros Hlen.
  assert (g_writer (Generate_body rand c (NewWriter w) n)
          = {| wr := w; buf := spaced (g_words (Generate_body rand c (NewWriter w) n));
               werr := None |}
          ∧ ∀ e, g_ret (Generate_body rand c (NewWriter w) n) ≠ Returns (Some e))
    as [Hwriter Hret].
  { unfold Generate_body in *. destruct (make_strings _); [|done].
    by apply (Generate_loop_fits rand (Z.to_nat n) 0 (chain c) (NewWriter w)). }
  split; [|done]. unfold Generate. rewrite Hwriter.
  by destruct (Flush _).
Qed.

Lemma Generate_short_output_single_flush_witness :
  g_writer (Generate rand_first the_cat_ran (0%nat : Closed) 100)
  = (Flush {| wr := (0%nat : Closed);
              buf := spaced (g_words (Generate rand_first the_cat_ran (0%nat : Closed) 100));
              werr := None |}).1
  ∧ ∀ e, g_ret (Generate rand_first the_cat_ran (0%nat : Closed) 100) ≠ Returns (Some e).
Proof.
  apply (Generate_short_output_single_flush rand_first the_cat_ran (0%nat : Closed) 100).
  apply Nat.leb_le. vm_compute. reflexivity.
Defined.

Example follow_ons_ex :
  follow_ons 1 ["a"; "a"; "a"; "b"] "a" = ["a"; "a"; "b"].
Proof. reflexivity. Qed.

Example Shift_ex : Shift ["a"; "b"; "c"] "d" = Returns ["b"; "c"; "d"].
Proof. reflexivity. Qed.

Example Build_ex :
  chain (Build (NewChain 1) (strings_NewReader "a a a b")).1 !! "a"
  = Some ["a"; "a"; "b"].
Proof. vm_compute. reflexivity. Qed.
